(** * R2R Python SDK: [py/sdk/base/base_client.py]

    A shallow embedding of the base client of the SDK: the request
    authorizer ([BaseClient]) and the two decorators that turn
    asynchronous methods into synchronous ones ([sync_wrapper],
    [sync_generator_wrapper]).

    Python values are embedded as follows.
    - [Optional[str]] is [option string]; a condition [if x:] on such a
      value is Python truthiness ([truthy]): [None] and the empty string
      are both false.
    - a [dict] with string keys is a [gmap string _]; [d.pop(k, _)] is a
      lookup followed by [delete k d].
    - dicts and sets passed as argument values are objects: a value
      refers to them by their address ([PRef]) in a store, and
      [d.update(e)] rewrites the object at that address, so every value
      that refers to the same object sees the change.
    - a raised exception is the [Raised] outcome of the [result] monad. *)

From stdpp Require Import base strings gmap fin_maps list.
From Stdlib Require Import ZArith QArith.

Set Warnings "-register-all".
Close Scope Q_scope.
Open Scope string_scope.

(** ** Exceptions and outcomes *)

(** The exception classes the module can surface.  [R2RException] is the
    SDK's own class ([shared.abstractions]); the others are built in. *)
Inductive exn : Type :=
  | R2RException (status_code : Z) (message : string)
  | StopAsyncIteration
  | StopIteration
  | RuntimeError (message : string)
  | AttributeError (message : string)
  | Exception (class_name message : string).

Inductive result (A : Type) : Type :=
  | Ok (a : A)
  | Raised (e : exn).
Arguments Ok {A} a.
Arguments Raised {A} e.

#[global] Instance result_ret : MRet result := λ A a, Ok a.
#[global] Instance result_bind : MBind result := λ A B f m,
  match m with
  | Ok a => f a
  | Raised e => Raised e
  end.


(** ** Python values passed as keyword arguments *)

(** Immutable values are carried as they are; a dict or a set is an
    object of the store and is carried by reference.  Lists are never
    modified nor compared by identity here, so they stay values.
    Objects of other classes are outside the embedding. *)
Inductive pyval : Type :=
  | PNone
  | PBool (b : bool)
  | PInt (z : Z)
  | PStr (s : string)
  | PList (l : list pyval)
  | PRef (l : nat).

Inductive obj : Type :=
  | ODict (d : gmap string pyval)
  | OSet (s : gset string).

Abbreviation store := (gmap nat obj).

(** The object a reference points to.  In a Python state every
    reference points into the store; for an address outside it the
    embedding reads an empty dict. *)
Definition obj_at (σ : store) (l : nat) : obj := default (ODict ∅) (σ !! l).

(** [type(v).__name__] *)
Definition type_name (σ : store) (v : pyval) : string :=
  match v with
  | PNone => "NoneType"
  | PBool _ => "bool"
  | PInt _ => "int"
  | PStr _ => "str"
  | PList _ => "list"
  | PRef l => match obj_at σ l with ODict _ => "dict" | OSet _ => "set" end
  end.

(** [v is None] *)
Definition is_none (v : pyval) : bool :=
  match v with PNone => true | _ => false end.

(** [v == {}]: only an empty dict compares equal to the empty dict; the
    comparison reads the object as it is in the store at that moment. *)
Definition eq_empty_dict (σ : store) (v : pyval) : bool :=
  match v with
  | PRef l =>
      match obj_at σ l with
      | ODict d => bool_decide (d = ∅)
      | OSet _ => false
      end
  | _ => false
  end.

(** [if x:] for [x : Optional[str]]. *)
Definition truthy (x : option string) : bool :=
  match x with
  | Some s => negb (String.eqb s "")
  | None => false
  end.

(** The object after [o.update(other)]: a dict takes the entries of
    [other], overwriting its own on equal keys; a set takes its keys. *)
Definition updated (o : obj) (other : gmap string string) : obj :=
  match o with
  | ODict d => ODict ((PStr <$> other) ∪ d)
  | OSet s => OSet (dom other ∪ s)
  end.

(** [headers.update(other)].  The attribute [update] is looked up on
    [headers] before the argument is evaluated, so a value of a type
    without that attribute fails first; the argument is therefore passed
    as a computation.  The update is in place: it rewrites the object in
    the store. *)
Definition py_update (σ : store) (headers : pyval)
    (other : result (gmap string string)) : result store :=
  match headers with
  | PRef l => o ← other; mret (<[l := updated (obj_at σ l) o]> σ)
  | v => Raised (AttributeError
           ("'" ++ type_name σ v ++ "' object has no attribute 'update'"))
  end.

(** ** The client *)

Module BaseClient.

Record t : Type := {
  base_url : string;
  prefix : string;
  timeout : Q;
  access_token : option string;
  _refresh_token : option string;
  _user_id : option string;
  api_key : option string;
}.

Definition default_base_url : string := "https://api.cloud.sciphi.ai".
Definition default_prefix : string := "/v3".
Definition default_timeout : Q := 300%Q.

(** [__init__].  [environ] is the process environment read by
    [os.getenv]; an argument the caller leaves out is [None] here and
    takes the default of the signature. *)
Definition __init__ (environ : gmap string string)
    (base_url prefix : option string) (timeout : option Q) : t :=
  {| base_url := default default_base_url base_url;
     prefix := default default_prefix prefix;
     timeout := default default_timeout timeout;
     access_token := None;
     _refresh_token := None;
     _user_id := None;
     api_key := environ !! "R2R_API_KEY" |}.

(** The string held by a credential the guard has found truthy. *)
Definition held (x : option string) : string := default "" x.

Definition _get_auth_header (self : t) : result (gmap string string) :=
  if truthy (access_token self) && truthy (api_key self) then
    Raised (R2RException 400 "Cannot have both access token and api key.")
  else if truthy (access_token self) then
    Ok {[ "Authorization" := "Bearer " ++ held (access_token self) ]}
  else if truthy (api_key self) then
    Ok {[ "x-api-key" := held (api_key self) ]}
  else
    Ok ∅.

Definition _ensure_authenticated (self : t) : result unit :=
  if negb (truthy (access_token self)) then
    Raised (R2RException 401 "Not authenticated. Please login first.")
  else
    Ok tt.

Definition default_version : string := "v3".

(** [version = None] is a call that leaves the argument out. *)
Definition _get_full_url (self : t) (endpoint : string)
    (version : option string) : string :=
  base_url self ++ "/" ++ default default_version version ++ "/" ++ endpoint.

Definition exempt_endpoints : list string :=
  ["register"; "login"; "verify_email"].

(** [kwargs.pop("headers", {})]: the caller's value, or a new empty dict
    at an unused address. *)
Definition pop_headers (kwargs : gmap string pyval) (σ : store)
  : pyval * store :=
  match kwargs !! "headers" with
  | Some v => (v, σ)
  | None => (PRef (fresh (dom σ)), <[fresh (dom σ) := ODict ∅]> σ)
  end.

Definition _prepare_request_args (self : t) (endpoint : string)
    (kwargs : gmap string pyval) (σ : store)
  : result (gmap string pyval * store) :=
  let '(headers, σ) := pop_headers kwargs σ in
  let kwargs := delete "headers" kwargs in
  σ ←
    (if (truthy (access_token self) || truthy (api_key self))
        && negb (bool_decide (endpoint ∈ exempt_endpoints))
     then py_update σ headers (_get_auth_header self)
     else Ok σ);
  let kwargs :=
    if eq_empty_dict σ (default PNone (kwargs !! "params"))
       || is_none (default PNone (kwargs !! "params"))
    then delete "params" kwargs
    else kwargs in
  mret (kwargs ∪ {[ "headers" := headers ]}, σ).

(** The two decisions [_prepare_request_args] takes, named for the
    statements about it: the store after the conditional update of
    [headers], and whether the [params] entry is popped, which is
    tested in that store. *)
Definition attached (self : t) (endpoint : string) (headers : pyval)
    (σ : store) : result store :=
  if (truthy (access_token self) || truthy (api_key self))
     && negb (bool_decide (endpoint ∈ exempt_endpoints))
  then py_update σ headers (_get_auth_header self)
  else Ok σ.

Definition drops_params (σ : store) (kwargs : gmap string pyval) : bool :=
  eq_empty_dict σ (default PNone (kwargs !! "params"))
  || is_none (default PNone (kwargs !! "params")).

(** The caller's headers are a mapping with entries [hdrs]: a reference
    to a dict of the store, or left out (then [hdrs] is empty). *)
Definition headers_mapping (σ : store) (kwargs : gmap string pyval)
    (hdrs : gmap string pyval) : Prop :=
  match kwargs !! "headers" with
  | Some (PRef l) => σ !! l = Some (ODict hdrs)
  | Some _ => False
  | None => hdrs = ∅
  end.


End BaseClient.

(** ** The synchronous adapters *)

(** *** The part of [asyncio] the decorators call

    [asyncio] belongs to the Python standard library, not to the SDK.  A
    coroutine object is a finite chain of suspension points that ends by
    returning a value or raising; [run_until_complete] refuses a closed
    or a running loop and otherwise drives the coroutine to its end,
    returning its value or re-raising its exception. *)

Inductive coroutine (V : Type) : Type :=
  | CoReturn (v : V)
  | CoRaise (e : exn)
  | CoAwait (k : coroutine V).
Arguments CoReturn {V} v.
Arguments CoRaise {V} e.
Arguments CoAwait {V} k.

Fixpoint drive {V} (c : coroutine V) : result V :=
  match c with
  | CoReturn v => Ok v
  | CoRaise e => Raised e
  | CoAwait k => drive k
  end.

(** [completes c r]: the operation [c], once scheduled, finishes with
    outcome [r]. *)
Inductive completes {V} : coroutine V → result V → Prop :=
  | completes_return v : completes (CoReturn v) (Ok v)
  | completes_raise e : completes (CoRaise e) (Raised e)
  | completes_await k r : completes k r → completes (CoAwait k) r.

Record event_loop : Type := {
  is_closed : bool;
  is_running : bool;
}.

Definition usable (loop : event_loop) : Prop :=
  is_closed loop = false ∧ is_running loop = false.

Definition run_until_complete {V} (loop : event_loop) (c : coroutine V)
  : result V :=
  if is_closed loop then Raised (RuntimeError "Event loop is closed")
  else if is_running loop then
    Raised (RuntimeError "This event loop is already running")
  else drive c.

(** *** The decorators

    What [asyncio.get_event_loop()] answers in the calling context (a
    loop, or an exception) is decided by the interpreter's event-loop
    policy; it is a parameter of the embedding. *)

Section SyncAdapter.
Context {A V : Type}.
Variable get_event_loop : result event_loop.

Definition sync_wrapper (async_func : A → coroutine V) : A → result V :=
  λ args,
    loop ← get_event_loop;
    run_until_complete loop (async_func args).

(** An asynchronous generator object: a state [G] advanced by
    [__anext__], whose awaitable returns the next value together with
    the new state, or raises ([StopAsyncIteration] at exhaustion). *)
Context {G : Type}.
Variable async_gen_func : A → G.
Variable __anext__ : G → coroutine (V * G).

(** The generator object returned by the decorated function.  The body
    runs only when the generator is advanced: before the first advance
    it holds the arguments, between advances it is parked at the
    [yield] with its locals. *)
Inductive generator : Type :=
  | Created (args : A)
  | Suspended (async_gen : G) (loop : event_loop)
  | Finished.

(** The exception that leaves a generator body in which [e] escaped:
    a [StopIteration] is replaced by a [RuntimeError] (PEP 479). *)
Definition escaping (e : exn) : exn :=
  match e with
  | StopIteration => RuntimeError "generator raised StopIteration"
  | e => e
  end.

(** One turn of [while True: yield loop.run_until_complete(...)] under
    [contextlib.suppress(StopAsyncIteration)]. *)
Definition resume (async_gen : G) (loop : event_loop)
  : result V * generator :=
  match run_until_complete loop (__anext__ async_gen) with
  | Ok (v, async_gen') => (Ok v, Suspended async_gen' loop)
  | Raised StopAsyncIteration => (Raised StopIteration, Finished)
  | Raised e => (Raised (escaping e), Finished)
  end.

(** [next(gen)] *)
Definition next (gen : generator) : result V * generator :=
  match gen with
  | Created args =>
      let async_gen := async_gen_func args in
      match get_event_loop with
      | Ok loop => resume async_gen loop
      | Raised e => (Raised (escaping e), Finished)
      end
  | Suspended async_gen loop => resume async_gen loop
  | Finished => (Raised StopIteration, Finished)
  end.

Definition sync_generator_wrapper : A → generator := Created.

(** [list(gen)]: advance until [StopIteration]; any other exception
    ends the iteration and is passed on.  [None] when [fuel] advances
    were not enough. *)
Fixpoint iterate (fuel : nat) (gen : generator)
  : option (result (list V) * generator) :=
  match fuel with
  | O => None
  | S fuel =>
      match next gen with
      | (Ok v, gen') =>
          match iterate fuel gen' with
          | Some (Ok l, gen'') => Some (Ok (v :: l), gen'')
          | Some (Raised e, gen'') => Some (Raised e, gen'')
          | None => None
          end
      | (Raised StopIteration, gen') => Some (Ok [], gen')
      | (Raised e, gen') => Some (Raised e, gen')
      end
  end.

(** The asynchronous generator in state [g] yields exactly the values
    of [l], in order, and then signals exhaustion. *)
Inductive produces : G → list V → Prop :=
  | produces_done g :
      completes (__anext__ g) (Raised StopAsyncIteration) →
      produces g []
  | produces_next g v g' l :
      completes (__anext__ g) (Ok (v, g')) →
      produces g' l →
      produces g (v :: l).

End SyncAdapter.

Arguments generator A G : clear implicits.

(** ** Concrete clients and generators used in the examples below *)

Module Fixtures.
Import BaseClient.

(** Attribute assignments [self.access_token = x], [self.api_key = x]
    and [self.prefix = x], as the login flows and callers perform. *)
Definition with_access_token (x : option string) (self : t) : t :=
  {| base_url := base_url self; prefix := prefix self;
     timeout := timeout self; access_token := x;
     _refresh_token := _refresh_token self; _user_id := _user_id self;
     api_key := api_key self |}.

Definition with_api_key (x : option string) (self : t) : t :=
  {| base_url := base_url self; prefix := prefix self;
     timeout := timeout self; access_token := access_token self;
     _refresh_token := _refresh_token self; _user_id := _user_id self;
     api_key := x |}.

Definition with_prefix (x : string) (self : t) : t :=
  {| base_url := base_url self; prefix := x;
     timeout := timeout self; access_token := access_token self;
     _refresh_token := _refresh_token self; _user_id := _user_id self;
     api_key := api_key self |}.

(** A client built with all defaults in an environment without
    [R2R_API_KEY]. *)
Definition anonymous : t := __init__ ∅ None None None.

(** A client built while [R2R_API_KEY] is exported but empty. *)
Definition empty_key : t := __init__ {[ "R2R_API_KEY" := "" ]} None None None.

Definition with_key (k : string) : t := with_api_key (Some k) anonymous.
Definition logged_in (tok : string) : t :=
  with_access_token (Some tok) anonymous.
Definition both (tok k : string) : t :=
  with_access_token (Some tok) (with_key k).

(** Keyword arguments of a call that passes its own headers, one of them
    under the name the API key goes by, and a JSON body; the headers dict
    lives at address 0 of [sample_store]. *)
Definition sample_headers : gmap string pyval :=
  {[ "x-api-key" := PStr "old"; "Accept" := PStr "json" ]}.
Definition sample_store : store := {[ 0 := ODict sample_headers ]}.
Definition sample_kwargs : gmap string pyval :=
  {[ "headers" := PRef 0; "json" := PInt 1 ]}.


Definition idle_loop : event_loop :=
  {| is_closed := false; is_running := false |}.

(** An asynchronous generator over a list: each [__anext__] suspends
    once, then hands out the head, and raises [StopAsyncIteration] on
    the empty list. *)
Definition list_anext (g : list Z) : coroutine (Z * list Z) :=
  match g with
  | [] => CoRaise StopAsyncIteration
  | v :: g' => CoAwait (CoReturn (v, g'))
  end.

(** An asynchronous operation that suspends twice and then returns its
    argument, or raises when the argument is negative. *)
Definition checked (x : Z) : coroutine Z :=
  CoAwait (CoAwait
    (if (x <? 0)%Z then CoRaise (Exception "ValueError" "negative")
     else CoReturn x)).

End Fixtures.

(** ** Consumers of a wrapped stream, and further sample objects *)

Section Consumers.
Context {A V G : Type}.
Variable get_event_loop : result event_loop.
Variable async_gen_func : A → G.
Variable __anext__ : G → coroutine (V * G).

(** [n] successive calls of [next(gen)], each outcome recorded: a value,
    or the exception the call raised ([StopIteration] once the generator
    is exhausted). *)
Fixpoint pulls (n : nat) (gen : generator A G)
  : list (result V) * generator A G :=
  match n with
  | O => ([], gen)
  | S n =>
      let '(r, gen') := next get_event_loop async_gen_func __anext__ gen in
      let '(rs, gen'') := pulls n gen' in
      (r :: rs, gen'')
  end.

(** The asynchronous generator in state [g] yields the values of [l], in
    order, and its next step raises [e]. *)
Inductive breaks : G → list V → exn → Prop :=
  | breaks_now g e :
      completes (__anext__ g) (Raised e) →
      breaks g [] e
  | breaks_later g v g' l e :
      completes (__anext__ g) (Ok (v, g')) →
      breaks g' l e →
      breaks g (v :: l) e.

End Consumers.

Module Samples.
Import BaseClient.

(** A credential with the empty string replaced by [None]. *)
Definition without_empty (x : option string) : option string :=
  if truthy x then x else None.

Definition normalized (self : t) : t :=
  {| base_url := base_url self; prefix := prefix self;
     timeout := timeout self;
     access_token := without_empty (access_token self);
     _refresh_token := _refresh_token self; _user_id := _user_id self;
     api_key := without_empty (api_key self) |}.

(** An asynchronous generator over a list whose step on the empty list
    fails with a connection error instead of signalling exhaustion. *)
Definition dropped_anext (g : list Z) : coroutine (Z * list Z) :=
  match g with
  | [] => CoAwait (CoRaise (Exception "ConnectionError" "reset by peer"))
  | v :: g' => CoAwait (CoReturn (v, g'))
  end.

(** An asynchronous generator that counts upwards and never stops. *)
Definition counter_anext (g : Z) : coroutine (Z * Z) :=
  CoAwait (CoReturn (g, (g + 1)%Z)).

End Samples.

(** * Properties *)

(** ** Request authorizer *)

Section Authorizer.
Import BaseClient Fixtures.

Lemma truthy_Some (x : option string) :
  truthy x = true ↔ ∃ s, x = Some s ∧ s ≠ "".
Proof.
  destruct x as [s|]; simpl.
  - rewrite negb_true_iff. split.
    + intros H. exists s. split; [done|]. intros ->. done.
    + intros (s' & [= <-] & Hne). by apply String.eqb_neq.
  - split; [done|]. by intros (? & ? & ?).
Qed.

Lemma truthy_false (x : option string) :
  truthy x = false ↔ x = None ∨ x = Some "".
Proof.
  destruct x as [s|]; simpl.
  - rewrite negb_false_iff, String.eqb_eq.
    split; [intros ->; by right | intros [?|[= ->]]; done].
  - split; [by left | done].
Qed.

(** C1, as the specification words it, fails: with an access token and
    an API key both present, the key being the empty string (the client
    was built while [R2R_API_KEY] was exported empty, then logged in),
    [_get_auth_header] returns the bearer header and raises nothing. *)
Lemma C1_conflict_counterexample :
  is_Some (access_token (with_access_token (Some "tok") empty_key)) ∧
  is_Some (api_key (with_access_token (Some "tok") empty_key)) ∧
  _get_auth_header (with_access_token (Some "tok") empty_key)
    = Ok {[ "Authorization" := "Bearer tok" ]} ∧
  _get_auth_header (with_access_token (Some "tok") empty_key)
    ≠ Raised (R2RException 400 "Cannot have both access token and api key.").
Proof. repeat split; [by eexists | by eexists | done]. Qed.

(** C1 (amended): whenever [access_token] and [api_key] both hold a
    non-empty string, [_get_auth_header] raises [R2RException] with
    status 400 and the message "Cannot have both access token and api
    key.", and returns no header mapping. *)
Theorem C1_conflict (self : t) :
  truthy (access_token self) = true →
  truthy (api_key self) = true →
  _get_auth_header self
    = Raised (R2RException 400 "Cannot have both access token and api key.")
  ∧ ∀ h, _get_auth_header self ≠ Ok h.
Proof.
  intros Ha Hk. unfold _get_auth_header. rewrite Ha, Hk. simpl.
  split; [reflexivity | discriminate].
Qed.

Lemma C1_conflict_witness :
  _get_auth_header (both "tok" "key")
    = Raised (R2RException 400 "Cannot have both access token and api key.")
  ∧ ∀ h, _get_auth_header (both "tok" "key") ≠ Ok h.
Proof. apply (C1_conflict (both "tok" "key")); reflexivity. Defined.

(** C2, as the specification words it, fails: a client whose only
    credential is an access token that is the empty string gets the
    empty mapping, not an [Authorization] entry. *)
Lemma C2_header_counterexample :
  is_Some (access_token (logged_in "")) ∧
  api_key (logged_in "") = None ∧
  _get_auth_header (logged_in "") = Ok ∅ ∧
  _get_auth_header (logged_in "")
    ≠ Ok {[ "Authorization" := "Bearer " ++ "" ]}.
Proof. repeat split; [by eexists | done]. Qed.

(** C2 (amended): counting a credential as set when it holds a
    non-empty string: with only [access_token] set the result is
    exactly [{"Authorization": "Bearer " + access_token}]; with only
    [api_key] set it is exactly [{"x-api-key": api_key}]; with neither
    set it is the empty mapping. *)
Theorem C2_header (self : t) :
  (∀ tok, access_token self = Some tok → tok ≠ "" →
     truthy (api_key self) = false →
     _get_auth_header self = Ok {[ "Authorization" := "Bearer " ++ tok ]})
  ∧ (∀ k, api_key self = Some k → k ≠ "" →
     truthy (access_token self) = false →
     _get_auth_header self = Ok {[ "x-api-key" := k ]})
  ∧ (truthy (access_token self) = false →
     truthy (api_key self) = false →
     _get_auth_header self = Ok ∅).
Proof.
  unfold _get_auth_header. repeat split.
  - intros tok Ha Hne Hk.
    assert (truthy (access_token self) = true) as Ht
      by (apply truthy_Some; eauto).
    rewrite Ht, Hk, Ha. reflexivity.
  - intros k Hk Hne Ha.
    assert (truthy (api_key self) = true) as Ht
      by (apply truthy_Some; eauto).
    rewrite Ht, Ha, Hk. reflexivity.
  - intros -> ->. reflexivity.
Qed.

Lemma C2_header_witness :
  _get_auth_header (logged_in "tok") = Ok {[ "Authorization" := "Bearer tok" ]}
  ∧ _get_auth_header (with_key "key") = Ok {[ "x-api-key" := "key" ]}
  ∧ _get_auth_header anonymous = Ok ∅.
Proof.
  split; [|split].
  - apply (proj1 (C2_header (logged_in "tok")) "tok"); done.
  - apply (proj1 (proj2 (C2_header (with_key "key"))) "key"); done.
  - apply (proj2 (proj2 (C2_header anonymous))); done.
Defined.

(** C3, as the specification words it, fails: an access token that is
    present but empty is rejected like an absent one. *)
Lemma C3_unauthenticated_counterexample :
  access_token (logged_in "") ≠ None ∧
  _ensure_authenticated (logged_in "")
    = Raised (R2RException 401 "Not authenticated. Please login first.").
Proof. split; done. Qed.

(** C3 (amended): [_ensure_authenticated] raises [R2RException] with
    status 401 and the message "Not authenticated. Please login first."
    if and only if [access_token] is absent or the empty string,
    whatever [api_key] is; otherwise it returns normally.  It reads
    [self] and produces no new client state. *)
Theorem C3_unauthenticated (self : t) :
  (_ensure_authenticated self
     = Raised (R2RException 401 "Not authenticated. Please login first.")
   ↔ access_token self = None ∨ access_token self = Some "")
  ∧ (∀ e, _ensure_authenticated self = Raised e →
       e = R2RException 401 "Not authenticated. Please login first.")
  ∧ ((∃ tok, access_token self = Some tok ∧ tok ≠ "") →
       _ensure_authenticated self = Ok tt)
  ∧ (∀ k, _ensure_authenticated (with_api_key k self)
       = _ensure_authenticated self).
Proof.
  unfold _ensure_authenticated. repeat split.
  - destruct (truthy (access_token self)) eqn:Ht; simpl; [done|].
    intros _. by apply truthy_false.
  - intros Hx%truthy_false. by rewrite Hx.
  - intros e. destruct (truthy _); simpl; congruence.
  - intros Hx%truthy_Some. by rewrite Hx.
Qed.

Lemma C3_unauthenticated_witness :
  _ensure_authenticated (with_key "key")
    = Raised (R2RException 401 "Not authenticated. Please login first.")
  ∧ _ensure_authenticated (logged_in "tok") = Ok tt.
Proof.
  split.
  - apply (proj1 (C3_unauthenticated (with_key "key"))). by left.
  - apply (proj1 (proj2 (proj2 (C3_unauthenticated (logged_in "tok"))))).
    by exists "tok".
Defined.

(** C10: the URL of a request is [base_url + "/" + version + "/" +
    endpoint] for every client, with [version] defaulting to "v3"; the
    [prefix] given to the constructor never enters it. *)
Theorem C10_full_url (self : t) (environ : gmap string string)
    (base pfx : string) (tmo : option Q) (endpoint version : string) :
  _get_full_url self endpoint (Some version)
    = base_url self ++ "/" ++ version ++ "/" ++ endpoint
  ∧ _get_full_url self endpoint None = base_url self ++ "/v3/" ++ endpoint
  ∧ _get_full_url (__init__ environ (Some base) (Some pfx) tmo) endpoint
        (Some version)
      = base ++ "/" ++ version ++ "/" ++ endpoint
  ∧ _get_full_url (__init__ environ (Some base) (Some pfx) tmo) endpoint None
      = base ++ "/v3/" ++ endpoint
  ∧ (∀ self v pfx',
       _get_full_url (with_prefix pfx' self) endpoint v
       = _get_full_url self endpoint v)
  ∧ _get_full_url (__init__ environ None (Some "/v4") tmo) "users" None
      = "https://api.cloud.sciphi.ai/v3/users".
Proof. repeat split. Qed.

(** *** [_prepare_request_args] *)

Lemma updated_empty (o : obj) : updated o ∅ = o.
Proof.
  destruct o as [d|s]; simpl; f_equal.
  - by rewrite fmap_empty, (left_id_L ∅ (∪)).
  - by rewrite dom_empty_L, (left_id_L ∅ (∪)).
Qed.

Lemma prepare_unfold (self : t) (endpoint : string)
    (kwargs : gmap string pyval) (σ : store) :
  _prepare_request_args self endpoint kwargs σ
  = σ' ← attached self endpoint (pop_headers kwargs σ).1
            (pop_headers kwargs σ).2;
    mret ((if drops_params σ' kwargs
           then delete "params" (delete "headers" kwargs)
           else delete "headers" kwargs)
          ∪ {[ "headers" := (pop_headers kwargs σ).1 ]}, σ').
Proof.
  unfold _prepare_request_args, attached, drops_params.
  destruct (pop_headers kwargs σ) as [hv σ0]. simpl.
  rewrite (lookup_delete_ne kwargs "headers" "params") by done.
  reflexivity.
Qed.

Lemma bundle_lookup (kwargs : gmap string pyval) (h : pyval) (drop : bool)
    (k : string) :
  ((if drop then delete "params" (delete "headers" kwargs)
    else delete "headers" kwargs) ∪ {[ "headers" := h ]}) !! k
  = if decide (k = "headers") then Some h
    else if drop && bool_decide (k = "params") then None
    else kwargs !! k.
Proof.
  rewrite lookup_union.
  destruct (decide (k = "headers")) as [->|Hk].
  - rewrite lookup_singleton_eq.
    destruct drop; simplify_map_eq; done.
  - rewrite lookup_singleton_ne by done.
    destruct drop; simpl.
    + case_bool_decide as Hp.
      * subst k. by simplify_map_eq.
      * rewrite !lookup_delete_ne by done. by destruct (kwargs !! k).
    + rewrite lookup_delete_ne by done. by destruct (kwargs !! k).
Qed.

Lemma prepare_ok_lookup (self : t) (endpoint : string)
    (kwargs r : gmap string pyval) (σ σ' : store) :
  _prepare_request_args self endpoint kwargs σ = Ok (r, σ') →
  attached self endpoint (pop_headers kwargs σ).1 (pop_headers kwargs σ).2
    = Ok σ'
  ∧ ∀ k, r !! k = if decide (k = "headers")
                  then Some (pop_headers kwargs σ).1
                  else if drops_params σ' kwargs && bool_decide (k = "params")
                       then None
                       else kwargs !! k.
Proof.
  rewrite prepare_unfold.
  destruct (attached _ _ _ _) as [σ1|e]; simpl; [|done].
  intros [= <- <-]. split; [done|].
  intros k. apply bundle_lookup.
Qed.

Lemma pop_headers_frame (kwargs : gmap string pyval) (σ : store) (l : nat) :
  (pop_headers kwargs σ).1 ≠ PRef l →
  (pop_headers kwargs σ).2 !! l = σ !! l.
Proof.
  unfold pop_headers. destruct (kwargs !! "headers"); simpl; [done|].
  intros Hl. apply lookup_insert_ne. congruence.
Qed.

Lemma fresh_unused (σ : store) : σ !! fresh (dom σ) = None.
Proof. apply not_elem_of_dom, is_fresh. Qed.

Lemma attached_frame (self : t) (endpoint : string) (hv : pyval)
    (σ σ' : store) (l : nat) :
  attached self endpoint hv σ = Ok σ' → hv ≠ PRef l → σ' !! l = σ !! l.
Proof.
  unfold attached.
  destruct ((truthy (access_token self) || truthy (api_key self))
            && negb (bool_decide (endpoint ∈ exempt_endpoints)));
    [|by intros [= <-]].
  destruct hv as [| | | | |hl]; simpl; try discriminate.
  destruct (_get_auth_header self) as [auth|]; simpl; [|discriminate].
  intros [= <-] Hl. apply lookup_insert_ne. congruence.
Qed.

(** Only the object returned as [headers] can be modified. *)
Lemma prepare_frame (self : t) (endpoint : string)
    (kwargs r : gmap string pyval) (σ σ' : store) (l : nat) :
  _prepare_request_args self endpoint kwargs σ = Ok (r, σ') →
  r !! "headers" ≠ Some (PRef l) →
  σ' !! l = σ !! l.
Proof.
  intros (Hatt & Hlk)%prepare_ok_lookup Hl.
  rewrite Hlk, decide_True in Hl by done.
  assert ((pop_headers kwargs σ).1 ≠ PRef l) as Hl' by congruence.
  rewrite (attached_frame _ _ _ _ _ _ Hatt Hl').
  by apply pop_headers_frame.
Qed.

Lemma attached_exempt (self : t) (endpoint : string) (headers : pyval)
    (σ : store) :
  endpoint ∈ exempt_endpoints → attached self endpoint headers σ = Ok σ.
Proof.
  intros He. unfold attached.
  rewrite (bool_decide_eq_true_2 _ He). simpl.
  by rewrite andb_false_r.
Qed.

(** Outside the exemption list the headers object is always updated
    with whatever [_get_auth_header] answers: when no credential is
    truthy that answer is the empty mapping, which changes nothing. *)
Lemma attached_not_exempt (self : t) (endpoint : string) (l : nat)
    (σ : store) :
  endpoint ∉ exempt_endpoints →
  is_Some (σ !! l) →
  attached self endpoint (PRef l) σ
  = py_update σ (PRef l) (_get_auth_header self).
Proof.
  intros He [o Ho]. unfold attached.
  rewrite (bool_decide_eq_false_2 _ He). simpl. rewrite andb_true_r.
  destruct (truthy (access_token self)) eqn:Ha,
           (truthy (api_key self)) eqn:Hk; simpl; try reflexivity.
  unfold _get_auth_header. rewrite Ha, Hk. simpl.
  rewrite updated_empty. unfold obj_at. rewrite Ho. simpl.
  by rewrite insert_id.
Qed.

Lemma headers_mapping_pop (σ : store) (kwargs hdrs : gmap string pyval) :
  headers_mapping σ kwargs hdrs →
  ∃ hl, (pop_headers kwargs σ).1 = PRef hl
      ∧ (pop_headers kwargs σ).2 !! hl = Some (ODict hdrs).
Proof.
  unfold headers_mapping, pop_headers.
  destruct (kwargs !! "headers") as [[| | | | |l]|]; simpl; try done.
  - intros H. by exists l.
  - intros ->. eexists. split; [done|]. apply lookup_insert_eq.
Qed.

(** On a non-exempt endpoint, with headers that are a mapping, the call
    is the update of the headers dict by [_get_auth_header]'s answer
    followed by the assembly of the bundle. *)
Lemma prepare_not_exempt (self : t) (endpoint : string)
    (kwargs hdrs : gmap string pyval) (σ : store) :
  endpoint ∉ exempt_endpoints →
  headers_mapping σ kwargs hdrs →
  ∃ hl, (pop_headers kwargs σ).1 = PRef hl
    ∧ (pop_headers kwargs σ).2 !! hl = Some (ODict hdrs)
    ∧ _prepare_request_args self endpoint kwargs σ
      = auth ← _get_auth_header self;
        mret ((if drops_params
                    (<[hl := ODict ((PStr <$> auth) ∪ hdrs)]>
                       (pop_headers kwargs σ).2) kwargs
               then delete "params" (delete "headers" kwargs)
               else delete "headers" kwargs)
              ∪ {[ "headers" := PRef hl ]},
              <[hl := ODict ((PStr <$> auth) ∪ hdrs)]>
                (pop_headers kwargs σ).2).
Proof.
  intros He (hl & Hhv & Hhl)%headers_mapping_pop.
  exists hl. split; [done|]. split; [done|].
  rewrite prepare_unfold, Hhv.
  rewrite (attached_not_exempt _ _ _ _ He) by by eexists.
  simpl. unfold obj_at. rewrite Hhl. simpl.
  by destruct (_get_auth_header self).
Qed.

Lemma exempt_iff (endpoint : string) :
  endpoint ∈ exempt_endpoints
  ↔ endpoint = "register" ∨ endpoint = "login" ∨ endpoint = "verify_email".
Proof.
  unfold exempt_endpoints.
  rewrite !elem_of_cons, elem_of_nil. tauto.
Qed.

(** C4: on the endpoints "register", "login" and "verify_email"
    (compared as exact strings) [_prepare_request_args] raises nothing
    and returns the caller's headers object untouched (a new empty dict
    when the caller passed none), whatever the credentials -- also when
    both are set.  On any other endpoint, "Login" included, the outcome
    of [_get_auth_header] is attached: its entries are merged into the
    headers, its exception is raised. *)
Theorem C4_exempt_endpoints :
  (∀ endpoint, endpoint ∈ exempt_endpoints
     ↔ endpoint = "register" ∨ endpoint = "login" ∨ endpoint = "verify_email")
  ∧ (∀ self endpoint kwargs σ, endpoint ∈ exempt_endpoints →
       ∃ r σ', _prepare_request_args self endpoint kwargs σ = Ok (r, σ')
          ∧ match kwargs !! "headers" with
            | Some v => r !! "headers" = Some v ∧ σ' = σ
            | None => ∃ l, σ !! l = None ∧ r !! "headers" = Some (PRef l)
                         ∧ σ' = <[l := ODict ∅]> σ
            end)
  ∧ (∀ self endpoint kwargs σ hdrs, endpoint ∉ exempt_endpoints →
       headers_mapping σ kwargs hdrs →
       match _get_auth_header self with
       | Raised e => _prepare_request_args self endpoint kwargs σ = Raised e
       | Ok auth =>
           ∃ r σ' hl,
             _prepare_request_args self endpoint kwargs σ = Ok (r, σ')
             ∧ r !! "headers" = Some (PRef hl)
             ∧ σ' !! hl = Some (ODict ((PStr <$> auth) ∪ hdrs))
       end)
  ∧ ("Login" ∉ exempt_endpoints)
  ∧ _prepare_request_args (logged_in "tok") "login" ∅ ∅
      = Ok ({[ "headers" := PRef 0 ]}, {[ 0 := ODict ∅ ]})
  ∧ _prepare_request_args (both "tok" "key") "login" ∅ ∅
      = Ok ({[ "headers" := PRef 0 ]}, {[ 0 := ODict ∅ ]})
  ∧ _prepare_request_args (logged_in "tok") "Login" ∅ ∅
      = Ok ({[ "headers" := PRef 0 ]},
            {[ 0 := ODict {[ "Authorization" := PStr "Bearer tok" ]} ]})
  ∧ _prepare_request_args (both "tok" "key") "Login" ∅ ∅
      = Raised (R2RException 400 "Cannot have both access token and api key.").
Proof.
  split; [exact exempt_iff|].
  split.
  { intros self endpoint kwargs σ He. rewrite prepare_unfold.
    rewrite (attached_exempt _ _ _ _ He). simpl. do 2 eexists.
    split; [done|]. rewrite bundle_lookup, decide_True by done.
    unfold pop_headers. destruct (kwargs !! "headers"); simpl; [done|].
    eexists. split; [apply fresh_unused|done]. }
  split.
  { intros self endpoint kwargs σ hdrs He Hh.
    destruct (prepare_not_exempt self _ _ _ _ He Hh) as (hl & _ & _ & ->).
    destruct (_get_auth_header self) as [auth|e]; simpl; [|done].
    do 3 eexists. split; [done|].
    split; [by rewrite bundle_lookup, decide_True|].
    apply lookup_insert_eq. }
  split.
  { rewrite exempt_iff. intros [?|[?|?]]; discriminate. }
  repeat split.
Qed.

Lemma C4_exempt_endpoints_witness :
  ∃ r σ',
    _prepare_request_args (both "tok" "key") "verify_email" sample_kwargs
      sample_store = Ok (r, σ')
    ∧ match sample_kwargs !! "headers" with
      | Some v => r !! "headers" = Some v ∧ σ' = sample_store
      | None => ∃ l, sample_store !! l = None ∧ r !! "headers" = Some (PRef l)
                   ∧ σ' = <[l := ODict ∅]> sample_store
      end.
Proof.
  apply (proj1 (proj2 C4_exempt_endpoints) (both "tok" "key") "verify_email"
           sample_kwargs sample_store).
  apply (proj1 C4_exempt_endpoints). right. right. reflexivity.
Defined.





Lemma one_present_not_both (self : t) :
  (is_Some (access_token self) ∧ api_key self = None)
    ∨ (access_token self = None ∧ is_Some (api_key self)) →
  truthy (access_token self) && truthy (api_key self) = false.
Proof.
  intros [[_ ->]|[-> _]]; simpl; [apply andb_false_r | reflexivity].
Qed.





Example prepare_overwrites_colliding_header :
  _prepare_request_args (with_key "key") "search" sample_kwargs sample_store
  = Ok ({[ "headers" := PRef 0; "json" := PInt 1 ]},
        {[ 0 := ODict {[ "x-api-key" := PStr "key";
                         "Accept" := PStr "json" ]} ]}).
Proof. reflexivity. Qed.

End Authorizer.

(** ** Synchronous adapters *)

Section Coroutines.
Context {V : Type}.

Lemma completes_drive (c : coroutine V) : completes c (drive c).
Proof. induction c; simpl; by constructor. Qed.

Lemma completes_inj (c : coroutine V) (r : result V) :
  completes c r → drive c = r.
Proof. induction 1; done. Qed.

Lemma run_until_complete_usable (loop : event_loop) (c : coroutine V)
    (r : result V) :
  usable loop → completes c r → run_until_complete loop c = r.
Proof.
  intros [Hc Hr] H. unfold run_until_complete. rewrite Hc, Hr.
  by apply completes_inj.
Qed.

End Coroutines.

Section SyncWrapper.
Context {A V : Type}.
Variable get_event_loop : result event_loop.
Variable async_func : A → coroutine V.

(** Without a loop the wrapper raises what [get_event_loop] raised and
    never starts the operation; it has no means of its own to make a
    loop. *)
Lemma sync_wrapper_no_loop (args : A) (e : exn) :
  get_event_loop = Raised e →
  sync_wrapper get_event_loop async_func args = Raised e.
Proof. intros H. unfold sync_wrapper. by rewrite H. Qed.

Lemma sync_wrapper_running_loop (args : A) (loop : event_loop) :
  get_event_loop = Ok loop → is_closed loop = false →
  is_running loop = true →
  sync_wrapper get_event_loop async_func args
  = Raised (RuntimeError "This event loop is already running").
Proof.
  intros H Hc Hr. unfold sync_wrapper, run_until_complete.
  rewrite H. simpl. by rewrite Hc, Hr.
Qed.

(** C8: called where [get_event_loop] hands out a loop that can be
    driven, the wrapper of [async_func] returns exactly the value the
    operation completes with, and raises exactly the exception the
    operation raises. *)
Theorem C8_sync_wrapper_transparent (args : A) (loop : event_loop) :
  get_event_loop = Ok loop →
  usable loop →
  (∀ v, completes (async_func args) (Ok v) →
        sync_wrapper get_event_loop async_func args = Ok v)
  ∧ (∀ E, completes (async_func args) (Raised E) →
        sync_wrapper get_event_loop async_func args = Raised E).
Proof.
  intros Hl Hu. unfold sync_wrapper. rewrite Hl. simpl.
  split; intros x Hx; by apply run_until_complete_usable.
Qed.

End SyncWrapper.

Lemma C8_sync_wrapper_transparent_witness :
  ((∀ v, completes (Fixtures.checked 5) (Ok v) →
         sync_wrapper (Ok Fixtures.idle_loop) Fixtures.checked 5%Z = Ok v)
   ∧ (∀ E, completes (Fixtures.checked 5) (Raised E) →
         sync_wrapper (Ok Fixtures.idle_loop) Fixtures.checked 5%Z = Raised E))
  ∧ ((∀ v, completes (Fixtures.checked (-1)) (Ok v) →
         sync_wrapper (Ok Fixtures.idle_loop) Fixtures.checked (-1)%Z = Ok v)
   ∧ (∀ E, completes (Fixtures.checked (-1)) (Raised E) →
         sync_wrapper (Ok Fixtures.idle_loop) Fixtures.checked (-1)%Z
         = Raised E)).
Proof.
  split.
  - apply (C8_sync_wrapper_transparent (Ok Fixtures.idle_loop)
             Fixtures.checked 5%Z Fixtures.idle_loop);
      [reflexivity | split; reflexivity].
  - apply (C8_sync_wrapper_transparent (Ok Fixtures.idle_loop)
             Fixtures.checked (-1)%Z Fixtures.idle_loop);
      [reflexivity | split; reflexivity].
Defined.

Example sync_wrapper_returns :
  sync_wrapper (Ok Fixtures.idle_loop) Fixtures.checked 5%Z = Ok 5%Z.
Proof. reflexivity. Qed.

Example sync_wrapper_raises :
  sync_wrapper (Ok Fixtures.idle_loop) Fixtures.checked (-1)%Z
  = Raised (Exception "ValueError" "negative").
Proof. reflexivity. Qed.

Section SyncGenerator.
Context {A V G : Type}.
Variable get_event_loop : result event_loop.
Variable async_gen_func : A → G.
Variable __anext__ : G → coroutine (V * G).

Abbreviation advance := (next get_event_loop async_gen_func __anext__).
Abbreviation drain := (iterate get_event_loop async_gen_func __anext__).
Abbreviation yields := (produces __anext__).

Lemma next_created (args : A) (loop : event_loop) :
  get_event_loop = Ok loop →
  advance (sync_generator_wrapper args)
  = advance (Suspended (async_gen_func args) loop).
Proof. intros H. simpl. by rewrite H. Qed.

Lemma iterate_created (args : A) (loop : event_loop) (fuel : nat) :
  get_event_loop = Ok loop →
  drain fuel (sync_generator_wrapper args)
  = drain fuel (Suspended (async_gen_func args) loop).
Proof.
  intros H. destruct fuel as [|fuel]; [done|].
  cbn [iterate]. by rewrite (next_created _ _ H).
Qed.

(** An exhausted generator stays exhausted: iterating it again ends at
    once, with no value and no error. *)
Lemma iterate_finished (fuel : nat) :
  drain (S fuel) (Finished : generator A G) = Some (Ok [], Finished).
Proof. reflexivity. Qed.

Lemma resume_value (loop : event_loop) (g g' : G) (v : V) :
  usable loop →
  completes (__anext__ g) (Ok (v, g')) →
  resume (A:=A) __anext__ g loop = (Ok v, Suspended g' loop).
Proof.
  intros Hu Hg. unfold resume.
  by rewrite (run_until_complete_usable _ _ _ Hu Hg).
Qed.

Lemma resume_exhausted (loop : event_loop) (g : G) :
  usable loop →
  completes (__anext__ g) (Raised StopAsyncIteration) →
  resume (A:=A) __anext__ g loop = (Raised StopIteration, Finished).
Proof.
  intros Hu Hg. unfold resume.
  by rewrite (run_until_complete_usable _ _ _ Hu Hg).
Qed.

Lemma iterate_produces (loop : event_loop) (g : G) (l : list V) :
  usable loop →
  yields g l →
  ∀ fuel, length l < fuel →
    drain fuel (Suspended g loop) = Some (Ok l, Finished).
Proof.
  intros Hu. induction 1 as [g Hg | g v g' l Hg Hl IH]; intros fuel Hf.
  - destruct fuel as [|fuel]; [simpl in Hf; lia|].
    cbn [iterate next]. by rewrite (resume_exhausted _ _ Hu Hg).
  - destruct fuel as [|fuel]; [simpl in Hf; lia|].
    cbn [iterate next]. rewrite (resume_value _ _ _ _ Hu Hg).
    rewrite IH by (simpl in Hf; lia). reflexivity.
Qed.

(** The wrapped stream hands out the values of the asynchronous
    generator in order and then ends cleanly, for every finite
    sequence. *)
Lemma sync_generator_wrapper_list (args : A) (loop : event_loop)
    (l : list V) :
  get_event_loop = Ok loop →
  usable loop →
  yields (async_gen_func args) l →
  ∀ fuel, length l < fuel →
    drain fuel (sync_generator_wrapper args) = Some (Ok l, Finished).
Proof.
  intros Hl Hu Hp fuel Hf. rewrite (iterate_created _ _ _ Hl).
  by apply iterate_produces.
Qed.

End SyncGenerator.

(** C7: over an asynchronous generator that yields 1, 2, 3 and then
    signals exhaustion, iterating the wrapped generator to its end gives
    exactly [1; 2; 3] with no exception, and iterating the same generator
    object once more gives the empty sequence, again with no exception. *)
Theorem C7_stream_single_pass {A G : Type} (get_event_loop : result event_loop)
    (async_gen_func : A → G) (__anext__ : G → coroutine (Z * G))
    (args : A) (loop : event_loop) :
  get_event_loop = Ok loop →
  usable loop →
  produces __anext__ (async_gen_func args) [1; 2; 3]%Z →
  ∃ gen',
    (∀ fuel, (4 ≤ fuel)%nat →
       iterate get_event_loop async_gen_func __anext__ fuel
         (sync_generator_wrapper args) = Some (Ok [1; 2; 3]%Z, gen'))
    ∧ (∀ fuel, (1 ≤ fuel)%nat →
       iterate get_event_loop async_gen_func __anext__ fuel gen'
       = Some (Ok [], gen')).
Proof.
  intros Hl Hu Hp. exists Finished. split.
  - intros fuel Hf.
    apply (sync_generator_wrapper_list _ _ _ _ loop); [done..|].
    simpl. lia.
  - intros [|fuel] Hf; [lia|]. apply iterate_finished.
Qed.

Lemma list_anext_produces (l : list Z) : produces Fixtures.list_anext l l.
Proof.
  induction l as [|v l IH].
  - apply produces_done. constructor.
  - eapply produces_next; [|exact IH]. simpl. repeat constructor.
Qed.

Lemma C7_stream_single_pass_witness :
  ∃ gen',
    (∀ fuel, (4 ≤ fuel)%nat →
       iterate (Ok Fixtures.idle_loop) id Fixtures.list_anext fuel
         (sync_generator_wrapper [1; 2; 3]%Z) = Some (Ok [1; 2; 3]%Z, gen'))
    ∧ (∀ fuel, (1 ≤ fuel)%nat →
       iterate (Ok Fixtures.idle_loop) id Fixtures.list_anext fuel gen'
       = Some (Ok [], gen')).
Proof.
  apply (C7_stream_single_pass (Ok Fixtures.idle_loop) id Fixtures.list_anext
           [1; 2; 3]%Z Fixtures.idle_loop).
  - reflexivity.
  - split; reflexivity.
  - apply list_anext_produces.
Defined.

Example stream_advances :
  let next := next (Ok Fixtures.idle_loop) id Fixtures.list_anext in
  let g0 := sync_generator_wrapper [1; 2; 3]%Z in
  let '(r1, g1) := next g0 in
  let '(r2, g2) := next g1 in
  let '(r3, g3) := next g2 in
  let '(r4, g4) := next g3 in
  let '(r5, g5) := next g4 in
  [r1; r2; r3; r4; r5]
  = [Ok 1%Z; Ok 2%Z; Ok 3%Z; Raised StopIteration; Raised StopIteration].
Proof. reflexivity. Qed.

(** * Further properties *)

(** ** Credentials and headers *)

Section Credentials.
Import BaseClient Fixtures Samples.

Lemma auth_header_cases (self : t) :
  (truthy (access_token self) = true ∧ truthy (api_key self) = true
   ∧ _get_auth_header self
     = Raised (R2RException 400 "Cannot have both access token and api key."))
  ∨ (truthy (access_token self) = true ∧ truthy (api_key self) = false
     ∧ _get_auth_header self
       = Ok {[ "Authorization" := "Bearer " ++ held (access_token self) ]})
  ∨ (truthy (access_token self) = false ∧ truthy (api_key self) = true
     ∧ _get_auth_header self = Ok {[ "x-api-key" := held (api_key self) ]})
  ∨ (truthy (access_token self) = false ∧ truthy (api_key self) = false
     ∧ _get_auth_header self = Ok ∅).
Proof.
  unfold _get_auth_header.
  destruct (truthy (access_token self)), (truthy (api_key self)); simpl;
    [left | right; left | right; right; left | right; right; right]; done.
Qed.

Lemma truthy_held (x : option string) :
  truthy x = true → x = Some (held x) ∧ held x ≠ "".
Proof.
  intros H. apply truthy_Some in H. destruct H as (s & Hs & Hne).
  rewrite Hs. done.
Qed.


(** X1: [_get_auth_header] raises exactly when both credentials are
    non-empty, and the only exception it ever raises is the 400 error
    with the message "Cannot have both access token and api key.". *)
Theorem auth_header_raises_iff (self : t) (e : exn) :
  _get_auth_header self = Raised e
  ↔ e = R2RException 400 "Cannot have both access token and api key."
    ∧ truthy (access_token self) = true ∧ truthy (api_key self) = true.
Proof.
  destruct (auth_header_cases self)
    as [(Ha & Hk & H)|[(Ha & Hk & H)|[(Ha & Hk & H)|(Ha & Hk & H)]]];
    rewrite H, Ha, Hk; split;
    try (intros [= <-]; done); try (intros (-> & _ & _); done);
    try discriminate; intros (_ & ? & ?); discriminate.
Qed.

(** X2: a mapping returned by [_get_auth_header] has at most one entry;
    the entry is either [Authorization], holding "Bearer " followed by
    the non-empty access token, or [x-api-key], holding the non-empty API
    key.  No header is ever built from an empty credential. *)
Theorem auth_header_shape (self : t) (h : gmap string string) :
  _get_auth_header self = Ok h →
  (size h ≤ 1)%nat
  ∧ ∀ name v, h !! name = Some v →
      (name = "Authorization"
       ∧ ∃ tok, access_token self = Some tok ∧ tok ≠ ""
                ∧ v = "Bearer " ++ tok)
      ∨ (name = "x-api-key" ∧ api_key self = Some v ∧ v ≠ "").
Proof.
  intros Hh.
  destruct (auth_header_cases self)
    as [(Ha & Hk & H)|[(Ha & Hk & H)|[(Ha & Hk & H)|(Ha & Hk & H)]]];
    rewrite H in Hh; simplify_eq.
  - split; [by rewrite map_size_singleton|].
    intros name v [<- <-]%lookup_singleton_Some. left. split; [done|].
    exists (held (access_token self)).
    destruct (truthy_held _ Ha) as [<- ?]. done.
  - split; [by rewrite map_size_singleton|].
    intros name v [<- <-]%lookup_singleton_Some. right. split; [done|].
    destruct (truthy_held _ Hk) as [<- ?]. done.
  - split; [rewrite map_size_empty; lia|].
    intros name v Hv. by rewrite lookup_empty in Hv.
Qed.

Lemma auth_header_shape_witness :
  (size ({[ "x-api-key" := "key" ]} : gmap string string) ≤ 1)%nat
  ∧ ∀ name v,
      ({[ "x-api-key" := "key" ]} : gmap string string) !! name = Some v →
      (name = "Authorization"
       ∧ ∃ tok, access_token (with_key "key") = Some tok ∧ tok ≠ ""
                ∧ v = "Bearer " ++ tok)
      ∨ (name = "x-api-key" ∧ api_key (with_key "key") = Some v ∧ v ≠ "").
Proof.
  apply (auth_header_shape (with_key "key") {[ "x-api-key" := "key" ]}).
  reflexivity.
Defined.

Lemma truthy_without_empty (x : option string) :
  truthy (without_empty x) = truthy x.
Proof. unfold without_empty. by destruct (truthy x) eqn:H. Qed.

Lemma held_without_empty (x : option string) :
  held (without_empty x) = held x.
Proof.
  unfold without_empty. destruct (truthy x) eqn:H; [done|].
  apply truthy_false in H as [-> | ->]; done.
Qed.

(** X3: a credential that is the empty string is indistinguishable from
    an absent one: replacing empty credentials by [None] changes the
    outcome of none of [_get_auth_header], [_ensure_authenticated] and
    [_prepare_request_args]. *)
Theorem empty_credential_is_absent (self : t) :
  _get_auth_header (normalized self) = _get_auth_header self
  ∧ _ensure_authenticated (normalized self) = _ensure_authenticated self
  ∧ ∀ endpoint kwargs σ,
      _prepare_request_args (normalized self) endpoint kwargs σ
      = _prepare_request_args self endpoint kwargs σ.
Proof.
  assert (_get_auth_header (normalized self) = _get_auth_header self) as Hh.
  { unfold _get_auth_header, normalized. simpl.
    by rewrite !truthy_without_empty, !held_without_empty. }
  split; [done|]. split.
  - unfold _ensure_authenticated, normalized. simpl.
    by rewrite truthy_without_empty.
  - intros endpoint kwargs σ. unfold _prepare_request_args. rewrite Hh.
    unfold normalized. simpl. by rewrite !truthy_without_empty.
Qed.

(** X4: once [_ensure_authenticated] has passed, [_get_auth_header]
    never answers with an API-key header or an empty mapping: it returns
    exactly the bearer header of the access token, unless a non-empty
    API key is also held, in which case it raises the 400 error. *)
Theorem authenticated_header (self : t) :
  _ensure_authenticated self = Ok tt →
  ∃ tok, access_token self = Some tok ∧ tok ≠ ""
    ∧ _get_auth_header self
      = if truthy (api_key self)
        then Raised
               (R2RException 400 "Cannot have both access token and api key.")
        else Ok {[ "Authorization" := "Bearer " ++ tok ]}.
Proof.
  unfold _ensure_authenticated, _get_auth_header.
  destruct (truthy (access_token self)) eqn:Ha; simpl; [|done].
  intros _. destruct (truthy_held _ Ha) as [Hs Hne].
  exists (held (access_token self)). by destruct (truthy (api_key self)).
Qed.

Lemma authenticated_header_witness :
  ∃ tok, access_token (logged_in "tok") = Some tok ∧ tok ≠ ""
    ∧ _get_auth_header (logged_in "tok")
      = if truthy (api_key (logged_in "tok"))
        then Raised
               (R2RException 400 "Cannot have both access token and api key.")
        else Ok {[ "Authorization" := "Bearer " ++ tok ]}.
Proof. apply (authenticated_header (logged_in "tok")). reflexivity. Defined.

(** X5: a client fresh from [__init__] is never authenticated, whatever
    the environment and arguments: [_ensure_authenticated] raises the 401
    error.  Its [_get_auth_header] never raises: it is the [x-api-key]
    header of [R2R_API_KEY] when that variable is set to a non-empty
    string, and the empty mapping otherwise. *)
Theorem fresh_client (environ : gmap string string)
    (base pfx : option string) (tmo : option Q) :
  _ensure_authenticated (__init__ environ base pfx tmo)
    = Raised (R2RException 401 "Not authenticated. Please login first.")
  ∧ _get_auth_header (__init__ environ base pfx tmo)
    = Ok (match environ !! "R2R_API_KEY" with
          | Some k => if String.eqb k "" then ∅ else {[ "x-api-key" := k ]}
          | None => ∅
          end).
Proof.
  split; [reflexivity|].
  unfold _get_auth_header, __init__. simpl.
  destruct (environ !! "R2R_API_KEY") as [k|]; simpl; [|done].
  by destruct (String.eqb k "").
Qed.

End Credentials.

(** ** Request bundles *)

Section Bundles.
Import BaseClient Fixtures Samples.

(** X6: [_prepare_request_args] raises only when it attaches
    authentication, that is on a non-exempt endpoint with a non-empty
    credential.  It then raises [AttributeError] when the caller's
    [headers] value is [None], a boolean, an integer, a string or a list
    -- also when both credentials are set, since the [update] attribute
    is looked up first -- and the 400 error when the headers are a dict
    or a set, or left out, and both credentials are non-empty.  In every
    other case it returns a bundle. *)
Theorem prepare_raises_iff (self : t) (endpoint : string)
    (kwargs : gmap string pyval) (σ : store) (e : exn) :
  _prepare_request_args self endpoint kwargs σ = Raised e
  ↔ truthy (access_token self) || truthy (api_key self) = true
    ∧ (endpoint ∉ exempt_endpoints)
    ∧ match kwargs !! "headers" with
      | Some (PRef _) | None =>
          truthy (access_token self) && truthy (api_key self) = true
          ∧ e = R2RException 400 "Cannot have both access token and api key."
      | Some v =>
          e = AttributeError
                ("'" ++ type_name σ v ++ "' object has no attribute 'update'")
      end.
Proof.
  rewrite prepare_unfold. unfold attached.
  destruct (truthy (access_token self) || truthy (api_key self)) eqn:Hany;
    simpl; [|split; [discriminate | by intros (? & _)]].
  case_bool_decide as He; simpl;
    [split; [discriminate | by intros (_ & ? & _)]|].
  assert (∀ l σ0,
            (o ← _get_auth_header self;
             mret (<[l := updated (obj_at σ0 l) o]> σ0))
              ≫= (λ σ', mret
                  ((if drops_params σ' kwargs
                    then delete "params" (delete "headers" kwargs)
                    else delete "headers" kwargs) ∪ {[ "headers" := PRef l ]},
                   σ')) = Raised e
            ↔ true = true ∧ (endpoint ∉ exempt_endpoints)
              ∧ truthy (access_token self) && truthy (api_key self) = true
              ∧ e = R2RException 400
                      "Cannot have both access token and api key.") as Href.
  { intros l σ0.
    destruct (auth_header_cases self)
      as [(Ha & Hk & H)|[(Ha & Hk & H)|[(Ha & Hk & H)|(Ha & Hk & H)]]];
      rewrite H, Ha, Hk; simpl.
    - split; [intros [= <-]; done | intros (_ & _ & _ & ->); done].
    - split; [discriminate | intros (_ & _ & ? & _); discriminate].
    - split; [discriminate | intros (_ & _ & ? & _); discriminate].
    - split; [discriminate | intros (_ & _ & ? & _); discriminate]. }
  unfold pop_headers.
  destruct (kwargs !! "headers") as [[| | | | |l]|]; simpl;
    try (split; [intros [= <-]; done | intros (_ & _ & ->); done]);
    apply Href.
Qed.

Example prepare_updates_set_headers :
  _prepare_request_args (with_key "key") "search" {[ "headers" := PRef 0 ]}
    {[ 0 := OSet ∅ ]}
  = Ok ({[ "headers" := PRef 0 ]}, {[ 0 := OSet {[ "x-api-key" ]} ]}).
Proof. reflexivity. Qed.

Example prepare_rejects_list_headers :
  _prepare_request_args (both "tok" "key") "search"
    {[ "headers" := PList [] ]} ∅
  = Raised (AttributeError "'list' object has no attribute 'update'").
Proof. reflexivity. Qed.

(** X7: a returned bundle always has a [headers] key, and beside it
    exactly the keys of [kwargs], less [params] when that entry is [None]
    or, tested after the update of the headers, an empty dict.  Unless
    [params] is the very object returned as [headers], that test gives
    the answer it would have given before the call. *)
Theorem prepare_keys (self : t) (endpoint : string)
    (kwargs r : gmap string pyval) (σ σ' : store) :
  _prepare_request_args self endpoint kwargs σ = Ok (r, σ') →
  dom r = {[ "headers" ]}
          ∪ (if drops_params σ' kwargs then dom kwargs ∖ {[ "params" ]}
             else dom kwargs)
  ∧ (r !! "headers" ≠ kwargs !! "params" →
     drops_params σ' kwargs = drops_params σ kwargs).
Proof.
  intros Hr.
  destruct (prepare_ok_lookup _ _ _ _ _ _ Hr) as (_ & Hlk).
  split.
  - apply set_eq. intros k.
    rewrite elem_of_dom, Hlk, elem_of_union, elem_of_singleton.
    destruct (decide (k = "headers")) as [->|Hk].
    { split; [by left | by eexists]. }
    destruct (drops_params σ' kwargs); simpl.
    + rewrite elem_of_difference, elem_of_singleton, elem_of_dom.
      case_bool_decide as Hp.
      * split; [by intros [? ?] | intros [?|[_ ?]]; done].
      * split; [intros ?; right; done | intros [?|[? _]]; done].
    + rewrite elem_of_dom. split; [by right | intros [?|?]; done].
  - intros Hne. unfold drops_params, eq_empty_dict.
    destruct (kwargs !! "params") as [[| | | | |l]|] eqn:Hp; simpl; try done.
    unfold obj_at. rewrite (prepare_frame _ _ _ _ _ _ l Hr); [done|].
    congruence.
Qed.

Lemma prepare_keys_witness :
  dom ({[ "headers" := PRef 1; "json" := PInt 1 ]} : gmap string pyval)
  = {[ "headers" ]}
    ∪ (if drops_params
            {[ 0 := ODict ∅; 1 := ODict {[ "x-api-key" := PStr "key" ]} ]}
            {[ "params" := PRef 0; "json" := PInt 1 ]}
       then dom ({[ "params" := PRef 0; "json" := PInt 1 ]}
                   : gmap string pyval) ∖ {[ "params" ]}
       else dom ({[ "params" := PRef 0; "json" := PInt 1 ]}
                   : gmap string pyval))
  ∧ (({[ "headers" := PRef 1; "json" := PInt 1 ]} : gmap string pyval)
       !! "headers"
     ≠ ({[ "params" := PRef 0; "json" := PInt 1 ]} : gmap string pyval)
         !! "params" →
     drops_params
       {[ 0 := ODict ∅; 1 := ODict {[ "x-api-key" := PStr "key" ]} ]}
       {[ "params" := PRef 0; "json" := PInt 1 ]}
     = drops_params {[ 0 := ODict ∅ ]}
         {[ "params" := PRef 0; "json" := PInt 1 ]}).
Proof.
  apply (prepare_keys (with_key "key") "search"
           {[ "params" := PRef 0; "json" := PInt 1 ]}).
  reflexivity.
Defined.

Lemma updated_idemp (o : obj) (other : gmap string string) :
  updated (updated o other) other = updated o other.
Proof.
  destruct o as [d|s]; simpl; f_equal.
  - by rewrite (assoc_L (∪)), (idemp_L (∪)).
  - by rewrite (assoc_L (∪)), (idemp_L (∪)).
Qed.

(** X8: [_prepare_request_args] is idempotent: a bundle it returned,
    passed again as the keyword arguments of the same client and
    endpoint in the store it left, comes back unchanged, and so does the
    store. *)
Theorem prepare_idempotent (self : t) (endpoint : string)
    (kwargs r : gmap string pyval) (σ σ' : store) :
  _prepare_request_args self endpoint kwargs σ = Ok (r, σ') →
  _prepare_request_args self endpoint r σ' = Ok (r, σ').
Proof.
  intros Hr.
  destruct (prepare_ok_lookup _ _ _ _ _ _ Hr) as (Hatt & Hlk).
  destruct (pop_headers kwargs σ) as [h σ0] eqn:Hpop. simpl in *.
  assert (r !! "headers" = Some h) as Hrh by (by rewrite Hlk, decide_True).
  assert (pop_headers r σ' = (h, σ')) as Hpop'.
  { unfold pop_headers. by rewrite Hrh. }
  assert (attached self endpoint h σ' = Ok σ') as Hatt'.
  { revert Hatt. unfold attached.
    destruct ((truthy (access_token self) || truthy (api_key self))
              && negb (bool_decide (endpoint ∈ exempt_endpoints)));
      [|done].
    destruct h as [| | | | |l]; simpl; try discriminate.
    destruct (_get_auth_header self) as [auth|]; simpl; [|discriminate].
    intros [= <-]. f_equal. unfold obj_at at 1.
    rewrite lookup_insert_eq. simpl.
    by rewrite updated_idemp, insert_insert_eq. }
  assert (r !! "params"
          = if drops_params σ' kwargs then None else kwargs !! "params")
    as Hrp.
  { rewrite Hlk, decide_False by done.
    rewrite bool_decide_eq_true_2 by done. by rewrite andb_true_r. }
  assert (drops_params σ' r = drops_params σ' kwargs) as Hd.
  { unfold drops_params at 1. rewrite Hrp.
    destruct (drops_params σ' kwargs) eqn:Hk; [reflexivity|]. exact Hk. }
  rewrite prepare_unfold, Hpop'. simpl. rewrite Hatt'. simpl. do 2 f_equal.
  apply map_eq. intros k. rewrite bundle_lookup, Hd, Hlk.
  destruct (decide (k = "headers")); [done|].
  destruct (drops_params σ' kwargs); simpl; [|done].
  by case_bool_decide.
Qed.

Lemma prepare_idempotent_witness :
  _prepare_request_args (with_key "key") "search"
    {[ "headers" := PRef 0; "json" := PInt 1 ]}
    {[ 0 := ODict {[ "x-api-key" := PStr "key"; "Accept" := PStr "json" ]} ]}
  = Ok ({[ "headers" := PRef 0; "json" := PInt 1 ]},
        {[ 0 := ODict {[ "x-api-key" := PStr "key";
                         "Accept" := PStr "json" ]} ]}).
Proof.
  apply (prepare_idempotent (with_key "key") "search" sample_kwargs _
           sample_store).
  reflexivity.
Defined.

(** X9: whatever the client and the endpoint, the bundle has a [params]
    entry exactly when [kwargs] has one that is neither [None] nor,
    tested after the update of the headers, an empty dict, and it is
    then bound to the same value or object; a value that is merely falsy
    (an empty list, an empty string, zero, [False]) is passed on.  The
    contents of an object passed as [params] are unchanged unless it is
    the object returned as [headers]. *)
Theorem prepare_params_kept (self : t) (endpoint : string)
    (kwargs r : gmap string pyval) (σ σ' : store) :
  _prepare_request_args self endpoint kwargs σ = Ok (r, σ') →
  (∀ v, r !! "params" = Some v
        ↔ kwargs !! "params" = Some v ∧ v ≠ PNone
          ∧ eq_empty_dict σ' v = false)
  ∧ (∀ v, v = PList [] ∨ v = PStr "" ∨ v = PInt 0 ∨ v = PBool false →
          kwargs !! "params" = Some v → r !! "params" = Some v)
  ∧ (∀ l, r !! "headers" ≠ Some (PRef l) → σ' !! l = σ !! l).
Proof.
  intros Hr.
  destruct (prepare_ok_lookup _ _ _ _ _ _ Hr) as (_ & Hlk).
  assert (r !! "params"
          = if drops_params σ' kwargs then None else kwargs !! "params")
    as Hrp.
  { rewrite Hlk, decide_False by done.
    rewrite bool_decide_eq_true_2 by done. by rewrite andb_true_r. }
  assert (∀ v, r !! "params" = Some v
               ↔ kwargs !! "params" = Some v ∧ v ≠ PNone
                 ∧ eq_empty_dict σ' v = false) as H.
  { intros v. rewrite Hrp. unfold drops_params.
    destruct (kwargs !! "params") as [w|]; simpl.
    - destruct (eq_empty_dict σ' w) eqn:He; simpl.
      + split; [done|]. intros ([= <-] & _ & ?). congruence.
      + destruct w; simpl;
          (split; [intros [= <-]; done | by intros ([= <-] & ? & _)]).
    - split; [done | by intros (? & _)]. }
  split; [exact H|]. split.
  - intros v Hv Hk. apply H. split; [done|].
    destruct Hv as [-> | [-> | [-> | ->]]]; done.
  - intros l Hl. by apply (prepare_frame _ _ _ _ _ _ l Hr).
Qed.

Lemma prepare_params_kept_witness :
  (∀ v, ({[ "headers" := PRef 0; "params" := PList [] ]}
           : gmap string pyval) !! "params" = Some v
        ↔ ({[ "params" := PList [] ]} : gmap string pyval) !! "params"
            = Some v ∧ v ≠ PNone
          ∧ eq_empty_dict {[ 0 := ODict ∅ ]} v = false)
  ∧ (∀ v, v = PList [] ∨ v = PStr "" ∨ v = PInt 0 ∨ v = PBool false →
          ({[ "params" := PList [] ]} : gmap string pyval) !! "params"
            = Some v →
          ({[ "headers" := PRef 0; "params" := PList [] ]}
             : gmap string pyval) !! "params" = Some v)
  ∧ (∀ l, ({[ "headers" := PRef 0; "params" := PList [] ]}
             : gmap string pyval) !! "headers" ≠ Some (PRef l) →
          ({[ 0 := ODict ∅ ]} : store) !! l = (∅ : store) !! l).
Proof.
  apply (prepare_params_kept anonymous "search" {[ "params" := PList [] ]}).
  reflexivity.
Defined.



End Bundles.

(** ** Request URLs *)

Section Urls.
Import BaseClient.

Lemma append_inv_head (s a b : string) : s ++ a = s ++ b → a = b.
Proof. induction s as [|c s IH]; simpl; [done|]. intros [= H]. auto. Qed.

Lemma length_append (a b : string) :
  String.length (a ++ b) = (String.length a + String.length b)%nat.
Proof. induction a as [|c a IH]; simpl; [done|]. by rewrite IH. Qed.

(** X11: for a given client and version, two endpoints have the same URL
    only if they are the same string, and the URL is as long as its
    three parts and the two separators together: nothing is trimmed,
    escaped or normalised. *)
Theorem full_url_injective (self : t) (version : option string)
    (endpoint1 endpoint2 : string) :
  (_get_full_url self endpoint1 version = _get_full_url self endpoint2 version
   ↔ endpoint1 = endpoint2)
  ∧ String.length (_get_full_url self endpoint1 version)
    = (String.length (base_url self)
       + String.length (default default_version version)
       + String.length endpoint1 + 2)%nat.
Proof.
  unfold _get_full_url. split.
  - split; [|by intros ->].
    intros H. do 4 apply append_inv_head in H. exact H.
  - rewrite !length_append. simpl. lia.
Qed.

End Urls.

(** ** Wrapped streams *)

Section Streams.
Local Open Scope list_scope.
Local Open Scope nat_scope.
Context {A V G : Type}.
Variable get_event_loop : result event_loop.
Variable async_gen_func : A → G.
Variable __anext__ : G → coroutine (V * G).

Abbreviation step := (next get_event_loop async_gen_func __anext__).
Abbreviation run := (iterate get_event_loop async_gen_func __anext__).
Abbreviation take_n := (pulls get_event_loop async_gen_func __anext__).
Abbreviation gives := (produces __anext__).
Abbreviation gives_then := (breaks __anext__).

Lemma produces_breaks (g : G) (l : list V) :
  gives g l → gives_then g l StopAsyncIteration.
Proof. induction 1; econstructor; eauto. Qed.

Lemma resume_fails (loop : event_loop) (g : G) (e : exn) :
  usable loop →
  completes (__anext__ g) (Raised e) →
  e ≠ StopAsyncIteration →
  resume (A:=A) __anext__ g loop = (Raised (escaping e), Finished).
Proof.
  intros Hu Hg He. unfold resume.
  rewrite (run_until_complete_usable _ _ _ Hu Hg). by destruct e.
Qed.

Lemma pulls_finished (n : nat) :
  take_n n Finished = (replicate n (Raised StopIteration), Finished).
Proof. induction n as [|n IH]; [done|]. cbn [pulls next]. by rewrite IH. Qed.

Lemma pulls_created (args : A) (loop : event_loop) (n : nat) :
  get_event_loop = Ok loop →
  take_n (S n) (sync_generator_wrapper args)
  = take_n (S n) (Suspended (async_gen_func args) loop).
Proof.
  intros H. cbn [pulls].
  by rewrite (next_created get_event_loop async_gen_func __anext__ _ _ H).
Qed.

Lemma pulls_app (n m : nat) (gen : generator A G) :
  take_n (n + m) gen
  = ((take_n n gen).1 ++ (take_n m (take_n n gen).2).1,
     (take_n m (take_n n gen).2).2).
Proof.
  revert gen. induction n as [|n IH]; intros gen; simpl.
  - by destruct (take_n m gen).
  - destruct (step gen) as [r gen']. rewrite IH.
    destruct (take_n n gen') as [rs gen'']. simpl.
    by destruct (take_n m gen'').
Qed.

(** Pulling [n] values from a generator parked on state [g] hands out
    the first [n] values of [g] and parks it on the state that yields
    the rest: the wrapper never reads ahead. *)
Lemma pulls_take (loop : event_loop) (e : exn) (n : nat) :
  usable loop →
  ∀ g l, gives_then g l e → n ≤ length l →
    ∃ g', take_n n (Suspended g loop)
          = (Ok <$> take n l, Suspended g' loop)
        ∧ gives_then g' (drop n l) e.
Proof.
  intros Hu. induction n as [|n IH]; intros g l Hg Hn.
  - exists g. by rewrite take_0, drop_0.
  - destruct Hg as [g e Hg | g v g' l e Hg Hl]; [simpl in Hn; lia|].
    destruct (IH g' l Hl) as (g'' & Hp & Hrest); [simpl in Hn; lia|].
    exists g''. cbn [pulls next].
    rewrite (resume_value _ _ _ _ _ Hu Hg), Hp. done.
Qed.

Lemma iterate_breaks (loop : event_loop) (g : G) (l : list V) (e : exn) :
  usable loop →
  gives_then g l e →
  e ≠ StopAsyncIteration →
  ∀ fuel, length l < fuel →
    run fuel (Suspended g loop) = Some (Raised (escaping e), Finished).
Proof.
  intros Hu Hg He.
  induction Hg as [g e Hg | g v g' l e Hg Hl IH]; intros fuel Hf.
  - destruct fuel as [|fuel]; [simpl in Hf; lia|].
    cbn [iterate next]. rewrite (resume_fails _ _ _ Hu Hg He).
    by destruct e.
  - destruct fuel as [|fuel]; [simpl in Hf; lia|].
    cbn [iterate next]. rewrite (resume_value _ _ _ _ _ Hu Hg).
    rewrite IH by (done || simpl in Hf; lia). done.
Qed.

(** X12: for every finite sequence the asynchronous generator yields
    before it signals exhaustion, iterating the wrapped generator gives
    exactly that sequence, in order and without an exception; pulled one
    by one the values are followed by [StopIteration]; and the generator
    is then exhausted for good. *)
Theorem stream_in_order (args : A) (loop : event_loop) (l : list V) :
  get_event_loop = Ok loop →
  usable loop →
  gives (async_gen_func args) l →
  ∃ gen',
    (∀ fuel, length l < fuel →
       run fuel (sync_generator_wrapper args) = Some (Ok l, gen'))
    ∧ take_n (S (length l)) (sync_generator_wrapper args)
      = ((Ok <$> l) ++ [Raised StopIteration], gen')
    ∧ (∀ fuel, 0 < fuel → run fuel gen' = Some (Ok [], gen'))
    ∧ (∀ n, take_n n gen' = (replicate n (Raised StopIteration), gen')).
Proof.
  intros Hl Hu Hg. exists Finished. split; [|split; [|split]].
  - intros fuel Hf.
    rewrite (iterate_created get_event_loop async_gen_func __anext__ _ _ _ Hl).
    by apply iterate_produces.
  - rewrite (pulls_created _ _ _ Hl).
    replace (S (length l)) with (length l + 1) by lia.
    rewrite pulls_app.
    destruct (pulls_take loop _ (length l) Hu _ _ (produces_breaks _ _ Hg))
      as (g' & Hp & Hrest); [done|].
    rewrite (firstn_all l) in Hp. rewrite (drop_all l) in Hrest.
    rewrite Hp. simpl.
    inversion Hrest as [? ? Hend|]; subst.
    by rewrite (resume_exhausted _ _ _ Hu Hend).
  - intros [|fuel] Hf; [lia|]. reflexivity.
  - apply pulls_finished.
Qed.

(** X13: when a step of the asynchronous generator raises an exception
    other than [StopAsyncIteration], the values yielded before it are
    handed out, the advance that hits the failing step raises that
    exception, and the generator is finished: the advance after it raises
    [StopIteration], so the stream cannot be resumed.  A full iteration
    raises the exception. *)
Theorem stream_error_ends_stream (args : A) (loop : event_loop)
    (l : list V) (e : exn) :
  get_event_loop = Ok loop →
  usable loop →
  gives_then (async_gen_func args) l e →
  e ≠ StopAsyncIteration →
  take_n (length l + 2) (sync_generator_wrapper args)
    = ((Ok <$> l) ++ [Raised (escaping e); Raised StopIteration], Finished)
  ∧ ∀ fuel, length l < fuel →
      run fuel (sync_generator_wrapper args)
      = Some (Raised (escaping e), Finished).
Proof.
  intros Hl Hu Hg He. split.
  - replace (length l + 2) with (S (length l + 1)) by lia.
    rewrite (pulls_created _ _ _ Hl).
    replace (S (length l + 1)) with (length l + 2) by lia.
    rewrite pulls_app.
    destruct (pulls_take loop _ (length l) Hu _ _ Hg) as (g' & Hp & Hrest);
      [done|].
    rewrite (firstn_all l) in Hp. rewrite (drop_all l) in Hrest.
    rewrite Hp. simpl.
    inversion Hrest as [? ? Hend|]; subst.
    by rewrite (resume_fails _ _ _ Hu Hend He).
  - intros fuel Hf.
    rewrite (iterate_created get_event_loop async_gen_func __anext__ _ _ _ Hl).
    by apply (iterate_breaks loop _ l).
Qed.

(** X14: the wrapper does not read ahead.  After [n] advances the
    caller holds the first [n] values, and iterating the same generator
    from there gives exactly the remaining ones. *)
Theorem stream_resumes_where_left (args : A) (loop : event_loop)
    (l : list V) (n : nat) :
  get_event_loop = Ok loop →
  usable loop →
  gives (async_gen_func args) l →
  n ≤ length l →
  ∃ gen',
    take_n n (sync_generator_wrapper args) = (Ok <$> take n l, gen')
    ∧ ∀ fuel, length l - n < fuel →
        run fuel gen' = Some (Ok (drop n l), Finished).
Proof.
  intros Hl Hu Hg Hn. destruct n as [|n].
  - exists (sync_generator_wrapper args). split; [done|].
    intros fuel Hf. rewrite drop_0.
    rewrite (iterate_created get_event_loop async_gen_func __anext__ _ _ _ Hl).
    apply iterate_produces; [done..|lia].
  - rewrite (pulls_created _ _ _ Hl).
    destruct (pulls_take loop _ (S n) Hu _ _ (produces_breaks _ _ Hg) Hn)
      as (g' & Hp & Hrest).
    exists (Suspended g' loop). split; [done|].
    intros fuel Hf.
    assert (gives g' (drop (S n) l)) as Hg'.
    { clear -Hrest. remember StopAsyncIteration as e eqn:He.
      induction Hrest; subst; econstructor; eauto. }
    apply iterate_produces; [done..|]. rewrite length_drop. lia.
Qed.

(** X15: where [get_event_loop] raises, creating the generator succeeds
    and the failure shows at the first advance, which raises that
    exception; the generator is finished by it, so every later advance
    raises [StopIteration] and no value is ever produced. *)
Theorem stream_without_loop (args : A) (e : exn) (n : nat) :
  get_event_loop = Raised e →
  take_n (S n) (sync_generator_wrapper args)
  = (Raised (escaping e) :: replicate n (Raised StopIteration), Finished).
Proof.
  intros H. pose proof (pulls_finished n) as Hf.
  cbn [pulls next sync_generator_wrapper]. rewrite H in *.
  by rewrite Hf.
Qed.

Lemma endless_pulls (loop : event_loop) (P : G → Prop) :
  usable loop →
  (∀ g, P g → ∃ v g', completes (__anext__ g) (Ok (v, g')) ∧ P g') →
  ∀ n g, P g →
    ∃ vs g', take_n n (Suspended g loop) = (Ok <$> vs, Suspended g' loop)
           ∧ length vs = n ∧ P g'.
Proof.
  intros Hu Hstep. induction n as [|n IH]; intros g Hg.
  - exists [], g. done.
  - destruct (Hstep g Hg) as (v & g' & Hc & Hg').
    destruct (IH g' Hg') as (vs & g'' & Hp & Hlen & Hg'').
    exists (v :: vs), g''. cbn [pulls next].
    rewrite (resume_value _ _ _ _ _ Hu Hc), Hp. simpl. by rewrite Hlen.
Qed.

Lemma endless_iterate (loop : event_loop) (P : G → Prop) :
  usable loop →
  (∀ g, P g → ∃ v g', completes (__anext__ g) (Ok (v, g')) ∧ P g') →
  ∀ fuel g, P g → run fuel (Suspended g loop) = None.
Proof.
  intros Hu Hstep. induction fuel as [|fuel IH]; intros g Hg; [done|].
  destruct (Hstep g Hg) as (v & g' & Hc & Hg').
  cbn [iterate next]. rewrite (resume_value _ _ _ _ _ Hu Hc).
  by rewrite (IH g' Hg').
Qed.

(** X16: over an asynchronous generator that never signals exhaustion
    (every state reachable from the first one yields), each advance of
    the wrapped generator returns a value, and a full iteration never
    finishes: no number of advances completes it. *)
Theorem stream_endless (args : A) (loop : event_loop) (P : G → Prop) :
  get_event_loop = Ok loop →
  usable loop →
  P (async_gen_func args) →
  (∀ g, P g → ∃ v g', completes (__anext__ g) (Ok (v, g')) ∧ P g') →
  (∀ fuel, run fuel (sync_generator_wrapper args) = None)
  ∧ (∀ n, ∃ vs gen',
       take_n n (sync_generator_wrapper args) = (Ok <$> vs, gen')
       ∧ length vs = n).
Proof.
  intros Hl Hu H0 Hstep. split.
  - intros fuel.
    rewrite (iterate_created get_event_loop async_gen_func __anext__ _ _ _ Hl).
    by apply (endless_iterate loop P).
  - intros [|n]; [by exists [], (sync_generator_wrapper args)|].
    rewrite (pulls_created _ _ _ Hl).
    destruct (endless_pulls loop P Hu Hstep (S n) _ H0)
      as (vs & g' & Hp & Hlen & _).
    by exists vs, (Suspended g' loop).
Qed.

End Streams.

Section StreamSamples.
Import Fixtures Samples.

Lemma dropped_anext_breaks (l : list Z) :
  breaks dropped_anext l l (Exception "ConnectionError" "reset by peer").
Proof.
  induction l as [|v l IH].
  - apply breaks_now. simpl. repeat constructor.
  - eapply breaks_later; [|exact IH]. simpl. repeat constructor.
Qed.

Lemma stream_in_order_witness :
  ∃ gen',
    (∀ fuel, (length [10; 20]%Z < fuel)%nat →
       iterate (Ok idle_loop) id list_anext fuel
         (sync_generator_wrapper [10; 20]%Z) = Some (Ok [10; 20]%Z, gen'))
    ∧ pulls (Ok idle_loop) id list_anext 3 (sync_generator_wrapper [10; 20]%Z)
      = ([Ok 10%Z; Ok 20%Z; Raised StopIteration], gen')
    ∧ (∀ fuel, (0 < fuel)%nat →
         iterate (Ok idle_loop) id list_anext fuel gen' = Some (Ok [], gen'))
    ∧ (∀ n, pulls (Ok idle_loop) id list_anext n gen'
            = (replicate n (Raised StopIteration), gen')).
Proof.
  apply (stream_in_order (Ok idle_loop) id list_anext [10; 20]%Z idle_loop).
  - reflexivity.
  - split; reflexivity.
  - apply list_anext_produces.
Defined.

Lemma stream_error_ends_stream_witness :
  pulls (Ok idle_loop) id dropped_anext 4 (sync_generator_wrapper [10; 20]%Z)
    = ([Ok 10%Z; Ok 20%Z;
        Raised (Exception "ConnectionError" "reset by peer");
        Raised StopIteration], Finished)
  ∧ ∀ fuel, (length [10; 20]%Z < fuel)%nat →
      iterate (Ok idle_loop) id dropped_anext fuel
        (sync_generator_wrapper [10; 20]%Z)
      = Some (Raised (Exception "ConnectionError" "reset by peer"), Finished).
Proof.
  apply (stream_error_ends_stream (Ok idle_loop) id dropped_anext
           [10; 20]%Z idle_loop [10; 20]%Z
           (Exception "ConnectionError" "reset by peer")).
  - reflexivity.
  - split; reflexivity.
  - apply dropped_anext_breaks.
  - discriminate.
Defined.

Lemma stream_resumes_where_left_witness :
  ∃ gen',
    pulls (Ok idle_loop) id list_anext 1
      (sync_generator_wrapper [10; 20; 30]%Z) = ([Ok 10%Z], gen')
    ∧ ∀ fuel, (length [10; 20; 30]%Z - 1 < fuel)%nat →
        iterate (Ok idle_loop) id list_anext fuel gen'
        = Some (Ok [20; 30]%Z, Finished).
Proof.
  apply (stream_resumes_where_left (Ok idle_loop) id list_anext
           [10; 20; 30]%Z idle_loop [10; 20; 30]%Z 1).
  - reflexivity.
  - split; reflexivity.
  - apply list_anext_produces.
  - simpl. lia.
Defined.

Lemma stream_without_loop_witness :
  pulls (Raised (RuntimeError "There is no current event loop")) id
    list_anext 3 (sync_generator_wrapper [10; 20]%Z)
  = ([Raised (RuntimeError "There is no current event loop");
      Raised StopIteration; Raised StopIteration], Finished).
Proof.
  apply (stream_without_loop
           (Raised (RuntimeError "There is no current event loop")) id
           list_anext [10; 20]%Z
           (RuntimeError "There is no current event loop") 2).
  reflexivity.
Defined.

Lemma stream_endless_witness :
  (∀ fuel, iterate (Ok idle_loop) id counter_anext fuel
             (sync_generator_wrapper 0%Z) = None)
  ∧ (∀ n, ∃ vs gen',
       pulls (Ok idle_loop) id counter_anext n (sync_generator_wrapper 0%Z)
       = (Ok <$> vs, gen')
       ∧ length vs = n).
Proof.
  apply (stream_endless (Ok idle_loop) id counter_anext 0%Z idle_loop
           (λ _, True)).
  - reflexivity.
  - split; reflexivity.
  - exact I.
  - intros g _. exists g, (g + 1)%Z. split; [|exact I]. repeat constructor.
Defined.

Example stream_endless_first_values :
  (pulls (Ok idle_loop) id counter_anext 3 (sync_generator_wrapper 0%Z)).1
  = [Ok 0%Z; Ok 1%Z; Ok 2%Z].
Proof. reflexivity. Qed.

End StreamSamples.
